(** * Variant.hh: variant calls, variant blocks and their derived predicates

    A shallow embedding of [src/c++/include/Variant.hh] (namespace [variant]).

    - C++ [int] and [int64_t] values are integers of [Z]; the functions below
      only compare them, so no wrap-around arises.
    - [size_t ngt] is an [N]; loop counters run over [nat].
    - A C array [int gt[MAX_GT]] is a [list Z]; a C++ object always has
      [length gt = MAX_GT], which is the predicate [gt_sized].  Reading
      [gt[i]] outside the array is undefined behaviour in C++ and is [None]
      here, so every function that reads the array returns an [option].
    - [std::vector] and [std::list] are lists; [std::string] is [string]. *)

From Stdlib Require Import ZArith NArith List String Ascii Bool Lia.
Import ListNotations.

Open Scope Z_scope.

(** ** Array reads that may fail *)

Module ReadNotations.
Notation "x <- m ;; k" :=
  (match m with Some x => k | None => None end)
    (at level 61, m at next level, right associativity).
End ReadNotations.
Import ReadNotations.

(** [a && b] and [a || b] of C++ over operands that may read out of range:
    the right operand is only looked at when the left one does not decide. *)
Definition and_also (a b : option bool) : option bool :=
  x <- a ;; if x then b else Some false.

Definition or_else (a b : option bool) : option bool :=
  x <- a ;; if x then Some true else b.

Infix "&&&" := and_also (at level 40, left associativity).
Infix "|||" := or_else (at level 50, left associativity).

(** ** Constants and enumerations *)

Definition MAX_GT : nat := 2.
Definition MAX_FILTER : nat := 20.

Inductive gttype : Type :=
| gt_homref
| gt_haploid
| gt_het
| gt_homalt
| gt_hetalt
| gt_unknown.

(** ** struct Call

    [gq] and [qual] are C++ [float]s that no function of the header reads;
    only their initial value 0 is ever written here, so they are kept as
    integers. *)

Record Call : Type := mkCall {
  gt : list Z;
  ad_ref : Z;
  ad_other : Z;
  ad : list Z;
  ngt : N;
  phased : bool;
  filter : list string;
  nfilter : N;
  gq : Z;
  dp : Z;
  qual : Z
}.

(** [Call::Call()] *)
Definition Call_new : Call :=
  {| gt := repeat (-1) MAX_GT;
     ad_ref := -1;
     ad_other := -1;
     ad := repeat (-1) MAX_GT;
     ngt := 0%N;
     phased := false;
     filter := repeat EmptyString MAX_FILTER;
     nfilter := 0%N;
     gq := 0;
     dp := -1;
     qual := 0 |}.

(** A fresh call whose genotype array holds [g] and whose active length is
    the number of entries given: what a reader does after [Call()]. *)
Definition Call_with_gt (g : list Z) : Call :=
  {| gt := firstn MAX_GT (g ++ repeat (-1) MAX_GT);
     ad_ref := -1;
     ad_other := -1;
     ad := repeat (-1) MAX_GT;
     ngt := N.of_nat (List.length g);
     phased := false;
     filter := repeat EmptyString MAX_FILTER;
     nfilter := 0%N;
     gq := 0;
     dp := -1;
     qual := 0 |}.

(** [gt[i]] *)
Definition gt_at (c : Call) (i : nat) : option Z := nth_error (gt c) i.

(** The array has its declared size. *)
Definition gt_sized (c : Call) : Prop := List.length (gt c) = MAX_GT.

(** The data-model invariant: the active length stays within the array. *)
Definition wf_call (c : Call) : Prop :=
  gt_sized c /\ (N.to_nat (ngt c) <= MAX_GT)%nat.

(** [Call::isNocall]: [for (i = 0; i < ngt; ++i) if (gt[i] >= 0) return false;
    return true;].  [todo] counts the iterations left, [ngt - i]. *)
Fixpoint isNocall_loop (c : Call) (i todo : nat) : option bool :=
  match todo with
  | O => Some true
  | S todo' =>
      g <- gt_at c i ;;
      if g >=? 0 then Some false else isNocall_loop c (S i) todo'
  end.

Definition isNocall (c : Call) : option bool :=
  isNocall_loop c 0 (N.to_nat (ngt c)).

(** [Call::isHomref]: the same loop with [gt[i] != 0], then
    [return ngt > 0;]. *)
Fixpoint isHomref_loop (c : Call) (i todo : nat) : option bool :=
  match todo with
  | O => Some (0 <? ngt c)%N
  | S todo' =>
      g <- gt_at c i ;;
      if negb (g =? 0) then Some false else isHomref_loop c (S i) todo'
  end.

Definition isHomref (c : Call) : option bool :=
  isHomref_loop c 0 (N.to_nat (ngt c)).

(** [gt[i] == k] and [gt[i] > k] *)
Definition gt_eq (c : Call) (i : nat) (k : Z) : option bool :=
  g <- gt_at c i ;; Some (g =? k).

Definition gt_gt (c : Call) (i : nat) (k : Z) : option bool :=
  g <- gt_at c i ;; Some (g >? k).

(** [Call::isHet] *)
Definition isHet (c : Call) : option bool :=
  Some (ngt c =? 2)%N
  &&& ((gt_eq c 0 0 &&& gt_gt c 1 0) ||| (gt_gt c 0 0 &&& gt_eq c 1 0)).

(** [Call::isHomalt]: [ngt == 2 && gt[0] == gt[1] && gt[1] > 0] *)
Definition isHomalt (c : Call) : option bool :=
  Some (ngt c =? 2)%N
  &&& (g0 <- gt_at c 0 ;; g1 <- gt_at c 1 ;; Some (g0 =? g1))
  &&& gt_gt c 1 0.

(** [Call::isHemi]: no array read. *)
Definition isHemi (c : Call) : bool := (ngt c =? 1)%N.

(** [g] is the active allele index at [i]: [i < ngt] and [gt[i]] is [g]. *)
Definition active (c : Call) (i : nat) (g : Z) : Prop :=
  (i < N.to_nat (ngt c))%nat /\ gt_at c i = Some g.

(** ** struct Variants *)

(** Modelled from the spec: [RefVar.hh] is not among the sources.  The spec
    calls the type an allele edit, "a sub-span replacement of reference
    sequence": the replaced span [start .. end_] (both inclusive) and the
    replacement [alt]. *)
Record RefVar : Type := mkRefVar {
  start : Z;
  end_ : Z;
  alt : string
}.

Record Variants : Type := mkVariants {
  chr : string;
  variation : list RefVar;
  calls : list Call;
  pos : Z;
  len : Z;
  info : string;
  ambiguous_alleles : list (list Z)
}.

(** [Variants::anyHomref] *)
Fixpoint anyHomref_loop (cs : list Call) : option bool :=
  match cs with
  | [] => Some false
  | c :: cs' =>
      h <- isHomref c ;;
      if h then Some true else anyHomref_loop cs'
  end.

Definition anyHomref (v : Variants) : option bool := anyHomref_loop (calls v).

(** [Variants::allHomref]: the loop, then [return calls.size() > 0;] of the
    whole vector, whose size the loop carries along as [size]. *)
Fixpoint allHomref_loop (size : nat) (cs : list Call) : option bool :=
  match cs with
  | [] => Some (0 <? size)%nat
  | c :: cs' =>
      h <- isHomref c ;;
      if negb h then Some false else allHomref_loop size cs'
  end.

Definition allHomref (v : Variants) : option bool :=
  allHomref_loop (List.length (calls v)) (calls v).

(** [std::list::empty] *)
Definition empty {A : Type} (l : list A) : bool :=
  match l with
  | [] => true
  | _ :: _ => false
  end.

(** [Variants::anyAmbiguous] *)
Fixpoint anyAmbiguous_loop (ls : list (list Z)) : bool :=
  match ls with
  | [] => false
  | c :: ls' => if negb (empty c) then true else anyAmbiguous_loop ls'
  end.

Definition anyAmbiguous (v : Variants) : bool :=
  anyAmbiguous_loop (ambiguous_alleles v).

(** ** Genotype classification *)

(** Modelled from the spec: [getGTType] is declared [extern] in the header
    and defined in a file that is not among the sources.  The cases are
    those of the spec's [classify], in its order; a call that meets none of
    them (a missing allele next to a called one, more than two active
    alleles) is [gt_unknown]. *)
Definition getGTType (var : Call) : option gttype :=
  if (ngt var =? 0)%N then Some gt_unknown
  else
    homref <- isHomref var ;;
    if homref then Some gt_homref
    else if (ngt var =? 1)%N then
      g0 <- gt_at var 0 ;;
      Some (if g0 >? 0 then gt_haploid else gt_unknown)
    else if (ngt var =? 2)%N then
      het <- isHet var ;;
      if het then Some gt_het
      else
        homalt <- isHomalt var ;;
        if homalt then Some gt_homalt
        else
          g0 <- gt_at var 0 ;;
          g1 <- gt_at var 1 ;;
          Some (if (g0 >? 0) && (g1 >? 0) && negb (g0 =? g1)
                then gt_hetalt else gt_unknown)
    else Some gt_unknown.

(** ** The shared annotation string *)

(** [v.info = s] *)
Definition with_info (v : Variants) (s : string) : Variants :=
  {| chr := chr v;
     variation := variation v;
     calls := calls v;
     pos := pos v;
     len := len v;
     info := s;
     ambiguous_alleles := ambiguous_alleles v |}.

(** What [setVariantInfo] answers: the block with its annotation set, or
    the contract violation of the spec's error taxonomy. *)
Inductive info_result : Type :=
| InfoSet (v : Variants)
| MalformedAnnotationUse.

(** The annotation [setVariantInfo] leaves, or nothing when it fails. *)
Definition info_of (r : info_result) : option string :=
  match r with
  | InfoSet v => Some (info v)
  | MalformedAnnotationUse => None
  end.

Open Scope string_scope.

Section Annotation.

(** The character that separates the tokens of the annotation string.  The
    spec says "delimited [key=value] tokens" and names no delimiter (the
    INFO column of VCF uses a semicolon), so it is a parameter. *)
Variable delim : ascii.

(** The fields of [s] between delimiters, empty ones included. *)
Fixpoint fields (s : string) : list string :=
  match s with
  | EmptyString => [EmptyString]
  | String c s' =>
      if Ascii.eqb c delim then EmptyString :: fields s'
      else
        match fields s' with
        | [] => [String c EmptyString]
        | f :: fs => String c f :: fs
        end
  end.

Definition nonempty (t : string) : bool := negb (t =? "").

(** The tokens of an annotation string: its non-empty fields. *)
Definition tokens (s : string) : list string :=
  List.filter nonempty (fields s).

(** The annotation string of a list of tokens. *)
Fixpoint join (ts : list string) : string :=
  match ts with
  | [] => ""
  | t :: ts' =>
      match ts' with
      | [] => t
      | _ :: _ => t ++ String delim (join ts')
      end
  end.

(** The token [name=value]. *)
Definition field (name value : string) : string := name ++ "=" ++ value.

(** [t] is a [name=...] token. *)
Definition is_field (name t : string) : bool := prefix (name ++ "=") t.

(** One pass over the tokens.  [found] says that a token of [name] was
    already met.  The first token of [name] is replaced by [name=value];
    a later one, and every one when [value] is empty, is dropped; when no
    token of [name] was met and [value] is not empty, [name=value] is
    added after the last token. *)
Fixpoint set_field (name value : string) (found : bool) (ts : list string)
  : list string :=
  match ts with
  | [] =>
      if found || (value =? "") then [] else [field name value]
  | t :: ts' =>
      if is_field name t then
        if found || (value =? "") then set_field name value true ts'
        else field name value :: set_field name value true ts'
      else t :: set_field name value found ts'
  end.

(** [name] stands in the annotation as a flag: a token that is the bare
    key, without an equals sign. *)
Definition has_flag (name : string) (ts : list string) : bool :=
  existsb (String.eqb name) ts.

(** Modelled from the spec: [setVariantInfo] is declared in the header and
    defined in a file that is not among the sources.  The spec: "find-or-
    replace a [key=value] token in the shared annotation string; an empty
    value removes the key", two calls for one key leave "exactly one"
    token of it, and an empty value "removes any existing" token of it;
    "flag-style keys without [=] are unsupported", and a call with one
    "fails fast rather than silently corrupting the annotation string".

    A key is used flag-style when the annotation holds it as a bare token;
    the call then answers [MalformedAnnotationUse] and writes nothing.
    Otherwise only [info] changes. *)
Definition setVariantInfo (v : Variants) (name value : string)
  : info_result :=
  if has_flag name (tokens (info v)) then MalformedAnnotationUse
  else
    InfoSet (with_info v
               (join (set_field name value false (tokens (info v))))).

(** [delim] does not occur in [s]. *)
Fixpoint delim_free (s : string) : bool :=
  match s with
  | EmptyString => true
  | String c s' => negb (Ascii.eqb c delim) && delim_free s'
  end.

End Annotation.

Arguments field : simpl never.

Close Scope string_scope.

(** ** Assembling a block *)

(** [l[i] = x] on a vector or array; out of range (undefined behaviour in
    C++) is not reached by the callers below and leaves [l] as it is. *)
Fixpoint update {A : Type} (l : list A) (i : nat) (x : A) : list A :=
  match l, i with
  | [], _ => []
  | _ :: l', O => x :: l'
  | y :: l', S i' => y :: update l' i' x
  end.

Definition set_gt (c : Call) (i : nat) (a : Z) : Call :=
  {| gt := update (gt c) i a;
     ad_ref := ad_ref c;
     ad_other := ad_other c;
     ad := ad c;
     ngt := N.succ (ngt c);
     phased := phased c;
     filter := filter c;
     nfilter := nfilter c;
     gq := gq c;
     dp := dp c;
     qual := qual c |}.

(** Modelled from the spec: [add_variant] is declared in the header and
    defined in a file that is not among the sources.  The spec: it "records
    one allele edit for one sample at the block's locus; extends
    [pos, pos+len) to cover it.  If the sample already holds the maximum
    allele count, the new allele index is appended to that sample's
    ambiguous-allele list instead of the genotype array".

    The block under assembly is passed explicitly.  The new edit goes to the
    end of [variation] and its allele index is its 1-based place there.  A
    sample outside the block's vectors is refused ([None]).  The spec does
    not say what [het] changes, and the model does not read it. *)
Definition add_variant (v : Variants) (sample : Z) (chr' : string)
  (rv : RefVar) (het : bool) : option Variants :=
  if sample <? 0 then None
  else
    let s := Z.to_nat sample in
    c <- nth_error (calls v) s ;;
    amb <- nth_error (ambiguous_alleles v) s ;;
    let allele := Z.of_nat (S (List.length (variation v))) in
    let pos' := Z.min (pos v) (start rv) in
    let end' := Z.max (pos v + len v) (end_ rv + 1) in
    let room := (N.to_nat (ngt c) <? MAX_GT)%nat in
    Some {| chr := chr';
            variation := variation v ++ [rv];
            calls :=
              if room
              then update (calls v) s (set_gt c (N.to_nat (ngt c)) allele)
              else calls v;
            pos := pos';
            len := end' - pos';
            info := info v;
            ambiguous_alleles :=
              if room then ambiguous_alleles v
              else update (ambiguous_alleles v) s (amb ++ [allele]) |}.

(** ** Buffer policies *)

Inductive VariantBufferMode : Type :=
| buffer_count
| buffer_block
| buffer_all
| buffer_endpos.

(** The end of the last allele edit seen once the edits of [v] have been
    seen too; [None] while no edit was seen. *)
Definition seen_end (last : option Z) (v : Variants) : option Z :=
  fold_left (fun _ rv => Some (end_ rv)) (variation v) last.

(** The block-overlap test made before a candidate is ingested: the
    candidate starts [param] or more base pairs after the last end seen. *)
Definition clear_of_last (param : Z) (last : option Z) (v : Variants) : bool :=
  match last with
  | None => false
  | Some e => param <=? pos v - e
  end.

(** The state of the block-overlap policy while an accumulation is open:
    the chromosome of the accumulation, the start of the block ingested
    last (the latest committed position) and the end of the last allele
    edit seen. *)
Record overlap_state : Type := mkOverlap {
  st_chr : string;
  st_pos : Z;
  st_end : option Z
}.

Definition last_end (cur : option overlap_state) : option Z :=
  match cur with
  | None => None
  | Some s => st_end s
  end.

(** The state once [v] is ingested; [None] is the empty accumulation. *)
Definition state_after (cur : option overlap_state) (v : Variants)
  : option overlap_state :=
  Some {| st_chr := chr v;
          st_pos := pos v;
          st_end := seen_end (last_end cur) v |}.

Definition states_after (cur : option overlap_state) (vs : list Variants)
  : option overlap_state :=
  fold_left state_after vs cur.

(** What the policy does with a candidate. *)
Inductive decision : Type :=
| Ingest
| Complete
| Refuse.

(** Modelled from the spec: the test of the block-overlap policy, made
    before each ingest.  The first block of an accumulation is ingested.
    A candidate on another chromosome completes the accumulation ("default
    to treating a chromosome change as an implicit flush boundary").  On
    the same chromosome, a candidate that starts before the latest
    committed position is refused (the spec's OrderingViolation: "a block
    presented with a position earlier than the latest committed position;
    must be surfaced to the caller"); one that starts [param] or more base
    pairs after the end of the last allele edit seen completes the
    accumulation; any other is ingested. *)
Definition decide (param : Z) (cur : option overlap_state) (v : Variants)
  : decision :=
  match cur with
  | None => Ingest
  | Some s =>
      if negb (String.eqb (chr v) (st_chr s)) then Complete
      else if pos v <? st_pos s then Refuse
      else if clear_of_last param (st_end s) v then Complete
      else Ingest
  end.

Section Driver.

(** A processing step: its state and its [add(Variants const &)]. *)
Variable Step : Type.
Variable ingest : Step -> Variants -> Step.

(** What one call of the driver answers: the step after the ingests and
    the blocks left in the reader, with either whether a block was
    produced or the ordering violation. *)
Inductive add_result : Type :=
| Added (st : Step) (rest : list Variants) (produced : bool)
| OrderingViolation (st : Step) (rest : list Variants).

(** Modelled from the spec: [add(VariantReader &, VariantBufferMode,
    int64_t)] is declared in the header and defined in a file that is not
    among the sources; this is the driver for [buffer_block].  The spec:
    "emit when the gap between the end of the last-seen allele edit and the
    next candidate's start is >= N base pairs"; "state = last-end position,
    re-evaluated before each ingest"; the driver feeds blocks "until the
    policy's stopping condition triggers, returning whether a block was
    produced".

    The reader is the list of the blocks it still holds.  A candidate that
    completes the accumulation or is refused is not consumed. *)
Fixpoint add_buffer_block (param : Z) (cur : option overlap_state)
  (source : list Variants) (st : Step) : add_result :=
  match source with
  | [] => Added st [] false
  | v :: source' =>
      match decide param cur v with
      | Ingest =>
          add_buffer_block param (state_after cur v) source' (ingest st v)
      | Complete => Added st source true
      | Refuse => OrderingViolation st source
      end
  end.

End Driver.

Arguments Added {Step} st rest produced.
Arguments OrderingViolation {Step} st rest.

(** A step that records what it was given, in order. *)
Definition record_step (st : list Variants) (v : Variants) : list Variants :=
  st ++ [v].

(** A block with one single-base allele edit at [p] and no samples. *)
Definition edit_at (p : Z) : Variants :=
  {| chr := "chr1";
     variation := [ {| start := p; end_ := p; alt := "A" |} ];
     calls := [];
     pos := p;
     len := 1;
     info := "";
     ambiguous_alleles := [] |}.

(** The same on chromosome [c]. *)
Definition edit_on (c : string) (p : Z) : Variants :=
  {| chr := c;
     variation := [ {| start := p; end_ := p; alt := "A" |} ];
     calls := [];
     pos := p;
     len := 1;
     info := "";
     ambiguous_alleles := [] |}.

(** The blocks a recording step is given by successive calls of the driver
    on one reader, each call starting a new accumulation; the accumulation
    still open when the reader runs out is the last one (the flush).
    [fuel] bounds the number of calls; an ordering violation ends the run
    without a result. *)
Fixpoint drive (fuel : nat) (param : Z) (source : list Variants)
  : option (list (list Variants)) :=
  match fuel, source with
  | O, _ => Some []
  | _, [] => Some []
  | S fuel', _ :: _ =>
      match
        add_buffer_block (list Variants) record_step param None source []
      with
      | Added st rest _ => option_map (cons st) (drive fuel' param rest)
      | OrderingViolation _ _ => None
      end
  end.

(** Two diploid samples; the first one already holds two alleles. *)
Definition full_block : Variants :=
  {| chr := "chr1";
     variation := [ {| start := 10; end_ := 10; alt := "A" |};
                    {| start := 10; end_ := 10; alt := "C" |} ];
     calls := [Call_with_gt [1; 2]; Call_with_gt [0; 1]];
     pos := 10;
     len := 1;
     info := "";
     ambiguous_alleles := [[]; []] |}.

(** A block that holds nothing but an annotation. *)
Definition annotated (s : string) : Variants :=
  {| chr := "chr1"; variation := []; calls := []; pos := 0; len := 0;
     info := s; ambiguous_alleles := [] |}.

(** ** Writes to a call, for stating what the predicates depend on *)

(** [c.ngt = n] *)
Definition set_ngt (c : Call) (n : N) : Call :=
  {| gt := gt c;
     ad_ref := ad_ref c;
     ad_other := ad_other c;
     ad := ad c;
     ngt := n;
     phased := phased c;
     filter := filter c;
     nfilter := nfilter c;
     gq := gq c;
     dp := dp c;
     qual := qual c |}.

(** [std::swap(c.gt[0], c.gt[1])]; an array with fewer than two entries is
    left as it is. *)
Definition swap_gt (c : Call) : Call :=
  {| gt := match gt c with
           | g0 :: g1 :: rest => g1 :: g0 :: rest
           | l => l
           end;
     ad_ref := ad_ref c;
     ad_other := ad_other c;
     ad := ad c;
     ngt := ngt c;
     phased := phased c;
     filter := filter c;
     nfilter := nfilter c;
     gq := gq c;
     dp := dp c;
     qual := qual c |}.

(** Two diploid samples, one hom-ref and one het. *)
Definition mixed_block : Variants :=
  {| chr := "chr1";
     variation := [ {| start := 10; end_ := 10; alt := "A" |} ];
     calls := [Call_with_gt [0; 1]; Call_with_gt [0; 0]];
     pos := 10;
     len := 1;
     info := "";
     ambiguous_alleles := [[]; []] |}.

(** The block [v1] with the samples of [v2] put after its own. *)
Definition join_samples (v1 v2 : Variants) : Variants :=
  {| chr := chr v1;
     variation := variation v1;
     calls := calls v1 ++ calls v2;
     pos := pos v1;
     len := len v1;
     info := info v1;
     ambiguous_alleles := ambiguous_alleles v1 ++ ambiguous_alleles v2 |}.

(** * Properties *)

(** ** Calls *)

Section CallFacts.

Variable c : Call.

Lemma gt_at_in_range (i : nat) :
  (i < List.length (gt c))%nat -> exists g, gt_at c i = Some g.
Proof.
  intros Hi. unfold gt_at.
  destruct (nth_error (gt c) i) as [g|] eqn:E; [now exists g|].
  apply nth_error_None in E. lia.
Qed.

(** The no-call loop from [i] with [todo] iterations left, all inside the
    array, returns, and returns [true] exactly when it met no called
    allele. *)
Lemma isNocall_loop_spec (todo i : nat) :
  (i + todo <= List.length (gt c))%nat ->
  exists b, isNocall_loop c i todo = Some b /\
    (b = true <->
     forall j g, (i <= j < i + todo)%nat -> gt_at c j = Some g -> g < 0).
Proof.
  revert i. induction todo as [|todo IH]; intros i Hlen; simpl.
  - exists true. split; [reflexivity|]. split; [|reflexivity].
    intros _ j g Hj. lia.
  - destruct (gt_at_in_range i) as [g Hg]; [lia|]. rewrite Hg.
    destruct (g >=? 0) eqn:Hsign.
    + exists false. split; [reflexivity|]. split; [discriminate|].
      intros H. specialize (H i g ltac:(lia) Hg). lia.
    + destruct (IH (S i)) as [b [Hb Hiff]]; [lia|].
      exists b. split; [exact Hb|]. rewrite Hiff. split.
      * intros H j g' Hj Hg'.
        destruct (Nat.eq_dec j i) as [->|Hne].
        -- rewrite Hg in Hg'. injection Hg' as <-. lia.
        -- apply (H j g'); [lia|exact Hg'].
      * intros H j g' Hj. apply H. lia.
Qed.

Lemma isHomref_loop_spec (todo i : nat) :
  (i + todo <= List.length (gt c))%nat ->
  exists b, isHomref_loop c i todo = Some b /\
    (b = true <->
     (0 < ngt c)%N /\
     forall j g, (i <= j < i + todo)%nat -> gt_at c j = Some g -> g = 0).
Proof.
  revert i. induction todo as [|todo IH]; intros i Hlen; simpl.
  - exists (0 <? ngt c)%N. split; [reflexivity|].
    rewrite N.ltb_lt. split.
    + intros H. split; [exact H|]. intros j g Hj. lia.
    + intros [H _]. exact H.
  - destruct (gt_at_in_range i) as [g Hg]; [lia|]. rewrite Hg.
    destruct (g =? 0) eqn:Hz; simpl.
    + apply Z.eqb_eq in Hz. subst g.
      destruct (IH (S i)) as [b [Hb Hiff]]; [lia|].
      exists b. split; [exact Hb|]. rewrite Hiff. split.
      * intros [Hn H]. split; [exact Hn|]. intros j g' Hj Hg'.
        destruct (Nat.eq_dec j i) as [->|Hne].
        -- rewrite Hg in Hg'. now injection Hg' as <-.
        -- apply (H j g'); [lia|exact Hg'].
      * intros [Hn H]. split; [exact Hn|]. intros j g' Hj. apply H. lia.
    + apply Z.eqb_neq in Hz.
      exists false. split; [reflexivity|]. split; [discriminate|].
      intros [_ H]. specialize (H i g ltac:(lia) Hg). contradiction.
Qed.

End CallFacts.

Ltac sized_gt c H :=
  unfold gt_sized, MAX_GT in H;
  let E := fresh "Egt" in
  destruct (gt c) as [|? [|? [|? ?]]] eqn:E; simpl in H; try discriminate H.

Lemma isHemi_iff (c : Call) : isHemi c = true <-> ngt c = 1%N.
Proof. unfold isHemi. apply N.eqb_eq. Qed.

Lemma wf_Call_new : wf_call Call_new.
Proof. split; [reflexivity | vm_compute; lia]. Qed.

(** C1: under the data-model invariant [isNocall] returns, and it returns
    [true] if and only if every active allele index is below 0; with no
    active allele it returns [true]. *)
Theorem isNocall_iff_all_missing (c : Call) :
  wf_call c ->
  (exists b, isNocall c = Some b /\
     (b = true <-> forall i g, active c i g -> g < 0))
  /\ (ngt c = 0%N -> isNocall c = Some true).
Proof.
  intros [Hsz Hn]. split.
  - destruct (isNocall_loop_spec c (N.to_nat (ngt c)) 0) as [b [Hb Hiff]].
    + rewrite Hsz. simpl. exact Hn.
    + exists b. split; [exact Hb|]. rewrite Hiff. unfold active. split.
      * intros H i g [Hi Hg]. apply (H i g); [lia|exact Hg].
      * intros H j g Hj Hg. apply (H j g). split; [lia|exact Hg].
  - intros H0. unfold isNocall. rewrite H0. reflexivity.
Qed.

Lemma isNocall_iff_all_missing_witness :
  wf_call (Call_with_gt [-1; -1]) /\
  ((exists b, isNocall (Call_with_gt [-1; -1]) = Some b /\
      (b = true <-> forall i g, active (Call_with_gt [-1; -1]) i g -> g < 0))
   /\ (ngt (Call_with_gt [-1; -1]) = 0%N ->
       isNocall (Call_with_gt [-1; -1]) = Some true)).
Proof.
  split.
  - split; [reflexivity | vm_compute; lia].
  - apply (isNocall_iff_all_missing (Call_with_gt [-1; -1])).
    split; [reflexivity | vm_compute; lia].
Defined.

(** C3: under the data-model invariant [isHomref] returns, and it returns
    [true] if and only if the active length is above 0 and every active
    allele index is 0; the call with alleles [0,0] satisfies it. *)
Theorem isHomref_iff_all_ref (c : Call) :
  wf_call c ->
  (exists b, isHomref c = Some b /\
     (b = true <->
      (0 < ngt c)%N /\ forall i g, active c i g -> g = 0))
  /\ isHomref (Call_with_gt [0; 0]) = Some true.
Proof.
  intros [Hsz Hn]. split; [|reflexivity].
  destruct (isHomref_loop_spec c (N.to_nat (ngt c)) 0) as [b [Hb Hiff]].
  - rewrite Hsz. simpl. exact Hn.
  - exists b. split; [exact Hb|]. rewrite Hiff. unfold active. split.
    + intros [H0 H]. split; [exact H0|].
      intros i g [Hi Hg]. apply (H i g); [lia|exact Hg].
    + intros [H0 H]. split; [exact H0|].
      intros j g Hj Hg. apply (H j g). split; [lia|exact Hg].
Qed.

Lemma isHomref_iff_all_ref_witness :
  wf_call (Call_with_gt [0; 3]) /\
  ((exists b, isHomref (Call_with_gt [0; 3]) = Some b /\
      (b = true <->
       (0 < ngt (Call_with_gt [0; 3]%Z))%N /\
       forall i g, active (Call_with_gt [0; 3]) i g -> g = 0))
   /\ isHomref (Call_with_gt [0; 0]) = Some true).
Proof.
  split.
  - split; [reflexivity | vm_compute; lia].
  - apply (isHomref_iff_all_ref (Call_with_gt [0; 3])).
    split; [reflexivity | vm_compute; lia].
Defined.

(** On an array of two entries the short-circuit reads of [isHet] and
    [isHomalt] all succeed, and the results are the plain boolean
    expressions. *)
Lemma isHet_sized (c : Call) (g0 g1 : Z) :
  gt c = [g0; g1] ->
  isHet c =
  Some ((ngt c =? 2)%N &&
        ((g0 =? 0) && (g1 >? 0) || (g0 >? 0) && (g1 =? 0))).
Proof.
  intros E. unfold isHet, gt_eq, gt_gt, gt_at. rewrite E. simpl.
  destruct (ngt c =? 2)%N, (g0 =? 0), (g1 >? 0), (g0 >? 0), (g1 =? 0);
    reflexivity.
Qed.

Lemma isHomalt_sized (c : Call) (g0 g1 : Z) :
  gt c = [g0; g1] ->
  isHomalt c = Some ((ngt c =? 2)%N && (g0 =? g1) && (g1 >? 0)).
Proof.
  intros E. unfold isHomalt, gt_gt, gt_at. rewrite E. simpl.
  destruct (ngt c =? 2)%N, (g0 =? g1), (g1 >? 0); reflexivity.
Qed.

Ltac bool_to_Prop :=
  rewrite ?andb_true_iff, ?orb_true_iff, ?N.eqb_eq, ?Z.eqb_eq, ?Z.gtb_lt.

(** C4: on a call whose genotype array has its declared size [isHet]
    returns, and it returns [true] if and only if the active length is 2 and
    one of the two allele indices is 0 while the other is above 0; the call
    with alleles [0,3] satisfies it. *)
Theorem isHet_iff_one_ref_one_alt (c : Call) :
  gt_sized c ->
  (exists b, isHet c = Some b /\
     (b = true <->
      ngt c = 2%N /\
      exists g0 g1, gt_at c 0 = Some g0 /\ gt_at c 1 = Some g1 /\
        ((g0 = 0 /\ 0 < g1) \/ (g1 = 0 /\ 0 < g0))))
  /\ isHet (Call_with_gt [0; 3]) = Some true.
Proof.
  intros Hsz. split; [|reflexivity].
  sized_gt c Hsz. rename z into g0, z0 into g1.
  eexists. split; [apply (isHet_sized c g0 g1 Egt)|].
  unfold gt_at. rewrite Egt. simpl. bool_to_Prop. split.
  - intros [Hn H]. split; [exact Hn|]. exists g0, g1.
    repeat split. lia.
  - intros [Hn [a0 [a1 [E0 [E1 H]]]]].
    injection E0 as <-. injection E1 as <-. split; [exact Hn | lia].
Qed.

Lemma isHet_iff_one_ref_one_alt_witness :
  gt_sized (Call_with_gt [3; 0]) /\
  ((exists b, isHet (Call_with_gt [3; 0]) = Some b /\
      (b = true <->
       ngt (Call_with_gt [3; 0]) = 2%N /\
       exists g0 g1,
         gt_at (Call_with_gt [3; 0]) 0 = Some g0 /\
         gt_at (Call_with_gt [3; 0]) 1 = Some g1 /\
         ((g0 = 0 /\ 0 < g1) \/ (g1 = 0 /\ 0 < g0))))
   /\ isHet (Call_with_gt [0; 3]) = Some true).
Proof.
  split.
  - reflexivity.
  - apply (isHet_iff_one_ref_one_alt (Call_with_gt [3; 0])). reflexivity.
Defined.

(** C5: on a call whose genotype array has its declared size [isHomalt]
    returns, and it returns [true] if and only if the active length is 2 and
    the two allele indices are equal and above 0; the call with alleles
    [2,2] satisfies it. *)
Theorem isHomalt_iff_equal_alts (c : Call) :
  gt_sized c ->
  (exists b, isHomalt c = Some b /\
     (b = true <->
      ngt c = 2%N /\
      exists g0 g1, gt_at c 0 = Some g0 /\ gt_at c 1 = Some g1 /\
        g0 = g1 /\ 0 < g1))
  /\ isHomalt (Call_with_gt [2; 2]) = Some true.
Proof.
  intros Hsz. split; [|reflexivity].
  sized_gt c Hsz. rename z into g0, z0 into g1.
  eexists. split; [apply (isHomalt_sized c g0 g1 Egt)|].
  unfold gt_at. rewrite Egt. simpl. bool_to_Prop. split.
  - intros [[Hn He] Hp]. split; [exact Hn|]. exists g0, g1.
    repeat split; assumption.
  - intros [Hn [a0 [a1 [E0 [E1 [He Hp]]]]]].
    injection E0 as <-. injection E1 as <-. repeat split; assumption.
Qed.

Lemma isHomalt_iff_equal_alts_witness :
  gt_sized (Call_with_gt [2; 1]) /\
  ((exists b, isHomalt (Call_with_gt [2; 1]) = Some b /\
      (b = true <->
       ngt (Call_with_gt [2; 1]) = 2%N /\
       exists g0 g1,
         gt_at (Call_with_gt [2; 1]) 0 = Some g0 /\
         gt_at (Call_with_gt [2; 1]) 1 = Some g1 /\
         g0 = g1 /\ 0 < g1))
   /\ isHomalt (Call_with_gt [2; 2]) = Some true).
Proof.
  split.
  - reflexivity.
  - apply (isHomalt_iff_equal_alts (Call_with_gt [2; 1])). reflexivity.
Defined.

(** A call with one active allele: what its loops return. *)
Lemma isHomref_single (c : Call) (g : Z) :
  ngt c = 1%N -> gt_at c 0 = Some g -> isHomref c = Some (g =? 0).
Proof.
  intros Hn Hg. unfold isHomref. rewrite Hn. simpl. rewrite Hg, Hn.
  destruct (g =? 0); reflexivity.
Qed.

Lemma isNocall_single (c : Call) (g : Z) :
  ngt c = 1%N -> gt_at c 0 = Some g -> isNocall c = Some (g <? 0).
Proof.
  intros Hn Hg. unfold isNocall. rewrite Hn. simpl. rewrite Hg.
  rewrite Z.geb_leb, Z.ltb_antisym. destruct (0 <=? g); reflexivity.
Qed.

Lemma getGTType_single (c : Call) (g : Z) :
  ngt c = 1%N -> gt_at c 0 = Some g ->
  getGTType c =
  Some (if g =? 0 then gt_homref
        else if g >? 0 then gt_haploid else gt_unknown).
Proof.
  intros Hn Hg. unfold getGTType.
  rewrite (isHomref_single c g Hn Hg), Hn, Hg. simpl.
  destruct (g =? 0); reflexivity.
Qed.

(** C6: the predicates are not mutually exclusive.  Some call satisfies two
    of them at once: every call with one active allele that is the
    reference satisfies [isHomref] and [isHemi], and every call with no
    active allele satisfies [isNocall] and classifies as unknown. *)
Theorem predicates_not_exclusive :
  (exists c, wf_call c /\ isHomref c = Some true /\ isHemi c = true)
  /\ (forall c, ngt c = 1%N -> gt_at c 0 = Some 0 ->
        isHomref c = Some true /\ isHemi c = true)
  /\ (forall c, ngt c = 0%N ->
        isNocall c = Some true /\ getGTType c = Some gt_unknown).
Proof.
  split; [|split].
  - exists (Call_with_gt [0]). split; [|split]; try reflexivity.
    split; [reflexivity | vm_compute; lia].
  - intros c Hn Hg. split.
    + apply (isHomref_single c 0 Hn Hg).
    + apply isHemi_iff. exact Hn.
  - intros c Hn. split.
    + unfold isNocall. rewrite Hn. reflexivity.
    + unfold getGTType. rewrite Hn. reflexivity.
Qed.

Lemma predicates_not_exclusive_witness :
  (isHomref (Call_with_gt [0]) = Some true /\
   isHemi (Call_with_gt [0]) = true)
  /\ (isNocall Call_new = Some true /\ getGTType Call_new = Some gt_unknown).
Proof.
  split.
  - apply (proj1 (proj2 predicates_not_exclusive)); reflexivity.
  - apply (proj2 (proj2 predicates_not_exclusive)); reflexivity.
Defined.

(** C9: with one active allele [isHemi] is [true] whatever the allele index
    is.  When the index is missing the call is a no-call too, and the call
    classifies as haploid only when the index is above 0, which [isHemi]
    does not ask for. *)
Theorem isHemi_ignores_allele (c : Call) :
  ngt c = 1%N ->
  isHemi c = true
  /\ forall g, gt_at c 0 = Some g ->
       (g < 0 -> isNocall c = Some true)
       /\ (g = 0 -> isHomref c = Some true)
       /\ (getGTType c = Some gt_haploid <-> 0 < g).
Proof.
  intros Hn. split; [apply isHemi_iff; exact Hn|].
  intros g Hg. split; [|split].
  - intros Hneg. rewrite (isNocall_single c g Hn Hg).
    f_equal. apply Z.ltb_lt. exact Hneg.
  - intros ->. apply (isHomref_single c 0 Hn Hg).
  - rewrite (getGTType_single c g Hn Hg).
    destruct (Z.eqb_spec g 0) as [Hz|Hz].
    + split; [discriminate | lia].
    + destruct (g >? 0) eqn:Hp.
      * apply Z.gtb_lt in Hp. split; [intros _; exact Hp | reflexivity].
      * rewrite Z.gtb_ltb in Hp. apply Z.ltb_ge in Hp.
        split; [discriminate | lia].
Qed.

Lemma isHemi_ignores_allele_witness :
  ngt (Call_with_gt [-1]) = 1%N /\
  (isHemi (Call_with_gt [-1]) = true
   /\ forall g, gt_at (Call_with_gt [-1]) 0 = Some g ->
        (g < 0 -> isNocall (Call_with_gt [-1]) = Some true)
        /\ (g = 0 -> isHomref (Call_with_gt [-1]) = Some true)
        /\ (getGTType (Call_with_gt [-1]) = Some gt_haploid <-> 0 < g)).
Proof.
  split.
  - reflexivity.
  - apply (isHemi_ignores_allele (Call_with_gt [-1])). reflexivity.
Defined.

(** The haploid no-call and the haploid reference call, evaluated. *)
Example haploid_nocall_is_hemi :
  isHemi (Call_with_gt [-1]) = true /\
  isNocall (Call_with_gt [-1]) = Some true /\
  getGTType (Call_with_gt [-1]) = Some gt_unknown.
Proof. repeat split. Qed.

Example haploid_ref_is_hemi :
  isHemi (Call_with_gt [0]) = true /\
  getGTType (Call_with_gt [0]) = Some gt_homref.
Proof. repeat split. Qed.

(** The calls of the spec's examples, classified. *)
Example classify_examples :
  getGTType Call_new = Some gt_unknown /\
  getGTType (Call_with_gt [0; 0]) = Some gt_homref /\
  getGTType (Call_with_gt [0; 3]) = Some gt_het /\
  getGTType (Call_with_gt [2; 2]) = Some gt_homalt /\
  getGTType (Call_with_gt [1; 2]) = Some gt_hetalt /\
  getGTType (Call_with_gt [1]) = Some gt_haploid.
Proof. repeat split. Qed.

(** ** Blocks *)

(** C10: on a block without calls [allHomref] and [anyHomref] both return
    [false]; on every block, [allHomref] returning [true] makes [anyHomref]
    return [true]. *)
Theorem allHomref_implies_anyHomref (v : Variants) :
  (calls v = [] -> allHomref v = Some false /\ anyHomref v = Some false)
  /\ (allHomref v = Some true -> anyHomref v = Some true).
Proof.
  unfold allHomref, anyHomref. split.
  - intros ->. split; reflexivity.
  - destruct (calls v) as [|c cs]; simpl; [discriminate|].
    destruct (isHomref c) as [[|]|]; simpl;
      [reflexivity | discriminate | discriminate].
Qed.

Lemma allHomref_implies_anyHomref_witness :
  anyHomref
    {| chr := "1"; variation := []; calls := [Call_with_gt [0; 0]];
       pos := 0; len := 1; info := ""; ambiguous_alleles := [[]] |}
  = Some true.
Proof.
  apply (proj2 (allHomref_implies_anyHomref _)). reflexivity.
Defined.

Lemma anyAmbiguous_loop_iff (ls : list (list Z)) :
  anyAmbiguous_loop ls = true <-> exists l, In l ls /\ l <> [].
Proof.
  induction ls as [|c ls IH]; simpl.
  - split; [discriminate | intros [l [[] _]]].
  - destruct c as [|a c]; simpl.
    + rewrite IH. split.
      * intros [l [Hin Hne]]. exists l. split; [right; exact Hin | exact Hne].
      * intros [l [[<-|Hin] Hne]]; [contradiction|]. now exists l.
    + split; [|reflexivity]. intros _. exists (a :: c).
      split; [left; reflexivity | discriminate].
Qed.

Section UpdateFacts.

Context {A : Type}.

Lemma nth_error_update_same (l : list A) (i : nat) (x y : A) :
  nth_error l i = Some y -> nth_error (update l i x) i = Some x.
Proof.
  revert i. induction l as [|z l IH]; intros [|i]; simpl;
    try discriminate; auto.
Qed.

Lemma nth_error_update_other (l : list A) (i j : nat) (x : A) :
  j <> i -> nth_error (update l i x) j = nth_error l j.
Proof.
  revert i j. induction l as [|z l IH]; intros [|i] [|j] Hne; simpl;
    try reflexivity; try contradiction.
  apply IH. intros ->. now apply Hne.
Qed.

Lemma length_update (l : list A) (i : nat) (x : A) :
  List.length (update l i x) = List.length l.
Proof.
  revert i. induction l as [|z l IH]; intros [|i]; simpl; auto.
Qed.

End UpdateFacts.

(** C8: [anyAmbiguous] is [true] if and only if some sample's list of
    ambiguous alleles is not empty.  When [add_variant] records an edit for
    a sample whose genotype array is full, the allele index goes to the end
    of that sample's list, the calls are left as they were, [anyAmbiguous]
    is [true] afterwards and every other sample's list is what it was (an
    empty one stays empty). *)
Theorem anyAmbiguous_iff_overflow (v : Variants) :
  (anyAmbiguous v = true <->
   exists l, In l (ambiguous_alleles v) /\ l <> [])
  /\ forall sample chr' rv het c amb,
       0 <= sample ->
       nth_error (calls v) (Z.to_nat sample) = Some c ->
       nth_error (ambiguous_alleles v) (Z.to_nat sample) = Some amb ->
       (MAX_GT <= N.to_nat (ngt c))%nat ->
       exists v',
         add_variant v sample chr' rv het = Some v'
         /\ anyAmbiguous v' = true
         /\ calls v' = calls v
         /\ (exists a,
               nth_error (ambiguous_alleles v') (Z.to_nat sample)
               = Some (amb ++ [a]))
         /\ forall j, j <> Z.to_nat sample ->
              nth_error (ambiguous_alleles v') j
              = nth_error (ambiguous_alleles v) j.
Proof.
  split; [apply anyAmbiguous_loop_iff|].
  intros sample chr' rv het c amb Hs Hc Hamb Hfull.
  unfold add_variant.
  destruct (Z.ltb_spec sample 0) as [Hneg|_]; [lia|].
  rewrite Hc, Hamb.
  destruct (Nat.ltb_spec (N.to_nat (ngt c)) MAX_GT) as [Hroom|_]; [lia|].
  eexists. split; [reflexivity|]. simpl.
  assert (Hnew : nth_error
                   (update (ambiguous_alleles v) (Z.to_nat sample)
                      (amb ++ [Z.of_nat (S (List.length (variation v)))]))
                   (Z.to_nat sample)
                 = Some (amb ++ [Z.of_nat (S (List.length (variation v)))]))
    by (eapply nth_error_update_same; exact Hamb).
  split; [|split; [reflexivity|split]].
  - unfold anyAmbiguous. simpl. apply anyAmbiguous_loop_iff.
    eexists. split; [eapply nth_error_In; exact Hnew|].
    destruct amb; discriminate.
  - eexists. exact Hnew.
  - intros j Hj. apply nth_error_update_other. exact Hj.
Qed.

Lemma anyAmbiguous_iff_overflow_witness :
  exists v',
    add_variant full_block 0 "chr1"
      {| start := 10; end_ := 10; alt := "G" |} true = Some v'
    /\ anyAmbiguous v' = true
    /\ calls v' = calls full_block
    /\ (exists a, nth_error (ambiguous_alleles v') (Z.to_nat 0)
                  = Some ([] ++ [a]))
    /\ forall j, j <> Z.to_nat 0 ->
         nth_error (ambiguous_alleles v') j
         = nth_error (ambiguous_alleles full_block) j.
Proof.
  apply (proj2 (anyAmbiguous_iff_overflow full_block) 0 "chr1"%string
           {| start := 10; end_ := 10; alt := "G" |} true
           (Call_with_gt [1; 2]) []).
  - lia.
  - reflexivity.
  - reflexivity.
  - vm_compute. lia.
Defined.

(** The same block after the third edit for the first sample. *)
Example third_allele_is_ambiguous :
  option_map (fun v' => (anyAmbiguous v', ambiguous_alleles v'))
    (add_variant full_block 0 "chr1"
       {| start := 10; end_ := 10; alt := "G" |} true)
  = Some (true, [[3]; []]).
Proof. reflexivity. Qed.

(** ** The block-overlap driver *)

Lemma decide_same_chr (param : Z) (s : overlap_state) (e : Z) (v : Variants) :
  st_end s = Some e -> chr v = st_chr s -> st_pos s <= pos v ->
  decide param (Some s) v
  = if param <=? pos v - e then Complete else Ingest.
Proof.
  intros He Hc Hp. unfold decide. rewrite Hc, String.eqb_refl. simpl.
  destruct (Z.ltb_spec (pos v) (st_pos s)) as [Hlt|_]; [lia|].
  rewrite He. reflexivity.
Qed.

(** A candidate on another chromosome completes the accumulation, whatever
    its position. *)
Lemma decide_other_chr (param : Z) (s : overlap_state) (v : Variants) :
  chr v <> st_chr s -> decide param (Some s) v = Complete.
Proof.
  intros Hc. unfold decide.
  destruct (String.eqb_spec (chr v) (st_chr s)) as [He|_];
    [contradiction | reflexivity].
Qed.

(** A candidate of the same chromosome that starts before the latest
    committed position is refused. *)
Lemma decide_out_of_order (param : Z) (s : overlap_state) (v : Variants) :
  chr v = st_chr s -> pos v < st_pos s -> decide param (Some s) v = Refuse.
Proof.
  intros Hc Hp. unfold decide. rewrite Hc, String.eqb_refl. simpl.
  destruct (Z.ltb_spec (pos v) (st_pos s)) as [_|Hge]; [reflexivity | lia].
Qed.

Section DriverFacts.

Variable Step : Type.
Variable ingest : Step -> Variants -> Step.

(** One call of the driver: it ingests a prefix [merged] of the reader in
    order, every block of which the policy chose to ingest in the state
    reached before it, and it stops in one of three ways: the reader ran
    out (answer [false]); the next candidate completes the accumulation
    (answer [true]); the next candidate is refused.  The candidate it
    stopped at stays in the reader. *)
Lemma add_buffer_block_run (param : Z) (source : list Variants) :
  forall (cur : option overlap_state) (st : Step),
  exists merged rest,
    source = merged ++ rest
    /\ (forall pre w post, merged = pre ++ w :: post ->
          decide param (states_after cur pre) w = Ingest)
    /\ ((rest = [] /\
         add_buffer_block Step ingest param cur source st
         = Added (fold_left ingest merged st) [] false)
        \/ (exists w rest', rest = w :: rest' /\
              decide param (states_after cur merged) w = Complete /\
              add_buffer_block Step ingest param cur source st
              = Added (fold_left ingest merged st) rest true)
        \/ (exists w rest', rest = w :: rest' /\
              decide param (states_after cur merged) w = Refuse /\
              add_buffer_block Step ingest param cur source st
              = OrderingViolation (fold_left ingest merged st) rest)).
Proof.
  induction source as [|v source IH]; intros cur st.
  - exists [], []. split; [reflexivity|]. split.
    + intros pre w post H. destruct pre; discriminate.
    + left. split; reflexivity.
  - simpl. destruct (decide param cur v) eqn:D.
    + destruct (IH (state_after cur v) (ingest st v))
        as [merged [rest [Hsplit [Hin Hstop]]]].
      exists (v :: merged), rest. split; [simpl; now rewrite Hsplit|].
      split.
      * intros [|p pre] w post H; injection H as <- H.
        -- exact D.
        -- apply (Hin pre w post H).
      * exact Hstop.
    + exists [], (v :: source). split; [reflexivity|]. split.
      * intros pre w post H. destruct pre; discriminate.
      * right. left. exists v, source. repeat split. exact D.
    + exists [], (v :: source). split; [reflexivity|]. split.
      * intros pre w post H. destruct pre; discriminate.
      * right. right. exists v, source. repeat split. exact D.
Qed.

End DriverFacts.



(** The end-to-end run of the spec: blocks at 10, 20 and 30 with
    [param = 5] come out as three blocks, one locus each; with
    [param = 50], 100 and 140 share a block and 300 has its own. *)
Example drive_10_20_30 :
  drive 3 5 [edit_at 10; edit_at 20; edit_at 30]
  = Some [[edit_at 10]; [edit_at 20]; [edit_at 30]].
Proof. reflexivity. Qed.

Example drive_100_140_300 :
  drive 3 50 [edit_at 100; edit_at 140; edit_at 300]
  = Some [[edit_at 100; edit_at 140]; [edit_at 300]].
Proof. reflexivity. Qed.

(** A chromosome change ends the block, although the candidate starts far
    before the last end seen. *)
Example drive_chromosome_change :
  drive 3 50 [edit_on "chr1" 1000000; edit_on "chr2" 10; edit_on "chr2" 20]
  = Some [[edit_on "chr1" 1000000]; [edit_on "chr2" 10; edit_on "chr2" 20]].
Proof. reflexivity. Qed.

(** A block that starts before the one committed last is refused and stays
    in the reader. *)
Example add_out_of_order :
  add_buffer_block (list Variants) record_step 50 None
    [edit_at 100; edit_at 90] []
  = OrderingViolation [edit_at 100] [edit_at 90]
  /\ drive 2 50 [edit_at 100; edit_at 90] = None.
Proof. split; reflexivity. Qed.

Lemma fold_record_step (vs st : list Variants) :
  fold_left record_step vs st = st ++ vs.
Proof.
  revert st. induction vs as [|v vs IH]; intros st; simpl.
  - now rewrite app_nil_r.
  - rewrite IH. unfold record_step. now rewrite <- app_assoc.
Qed.

Lemma drive_nil (param : Z) (fuel : nat) : drive fuel param [] = Some [].
Proof. destruct fuel; reflexivity. Qed.

(** Successive calls neither drop nor reorder a block: when the run ends
    with a result, with a call per block of the reader at hand, the
    accumulations put end to end are the reader. *)
Lemma drive_concat (param : Z) (fuel : nat) :
  forall source gs, (List.length source <= fuel)%nat ->
  drive fuel param source = Some gs ->
  List.concat gs = source.
Proof.
  induction fuel as [|fuel IH]; intros [|v source] gs Hlen Hrun;
    simpl in *; try lia.
  - injection Hrun as <-. reflexivity.
  - injection Hrun as <-. reflexivity.
  - destruct (add_buffer_block_run (list Variants) record_step param source
                (state_after None v) (record_step [] v))
      as [merged [rest [Hsplit [_ Hstop]]]].
    rewrite fold_record_step in Hstop. simpl in Hstop.
    destruct Hstop as [[Hr Hadd] | [[w [rest' [Hr [_ Hadd]]]]
                                   | [w [rest' [Hr [_ Hadd]]]]]];
      rewrite Hadd in Hrun.
    + rewrite drive_nil in Hrun. injection Hrun as <-. simpl.
      rewrite Hsplit, Hr, !app_nil_r. reflexivity.
    + destruct (drive fuel param rest) as [gs'|] eqn:Hd; [|discriminate].
      injection Hrun as <-. simpl. rewrite (IH rest gs').
      * now rewrite Hsplit.
      * rewrite Hsplit, length_app in Hlen. lia.
      * exact Hd.
    + discriminate.
Qed.

(** ** The annotation string *)

Open Scope string_scope.

Lemma nonempty_true (t : string) : nonempty t = true <-> t <> "".
Proof.
  unfold nonempty. rewrite negb_true_iff. split.
  - intros H ->. discriminate.
  - intros H. destruct t; [contradiction | reflexivity].
Qed.

Lemma is_field_own (name value : string) :
  is_field name (field name value) = true.
Proof.
  unfold is_field, field. induction name as [|c name IH]; simpl.
  - destruct (ascii_dec "=" "=") as [_|Hne]; [|contradiction].
    destruct value; reflexivity.
  - destruct (ascii_dec c c) as [_|Hne]; [exact IH | contradiction].
Qed.

Section AnnotationFacts.

Variable delim : ascii.

Local Abbreviation free := (fun t => delim_free delim t = true).

Lemma delim_free_app (a b : string) :
  delim_free delim (a ++ b) = delim_free delim a && delim_free delim b.
Proof.
  induction a as [|c a IH]; simpl; [reflexivity|].
  rewrite IH. now rewrite andb_assoc.
Qed.

Lemma fields_single (t : string) :
  delim_free delim t = true -> fields delim t = [t].
Proof.
  induction t as [|c t IH]; simpl; [reflexivity|].
  intros H. apply andb_true_iff in H as [Hc Ht].
  apply negb_true_iff in Hc. rewrite Hc, (IH Ht). reflexivity.
Qed.

Lemma fields_app (t r : string) :
  delim_free delim t = true ->
  fields delim (t ++ String delim r) = t :: fields delim r.
Proof.
  induction t as [|c t IH]; simpl.
  - intros _. now rewrite Ascii.eqb_refl.
  - intros H. apply andb_true_iff in H as [Hc Ht].
    apply negb_true_iff in Hc. rewrite Hc, (IH Ht). reflexivity.
Qed.

Lemma fields_free (s : string) : Forall free (fields delim s).
Proof.
  induction s as [|c s IH]; simpl.
  - repeat constructor.
  - destruct (Ascii.eqb c delim) eqn:Hc.
    + constructor; [reflexivity | exact IH].
    + destruct (fields delim s) as [|f fs].
      * repeat constructor. simpl. now rewrite Hc.
      * inversion IH as [|? ? Hf Hfs]; subst.
        constructor; [|exact Hfs]. simpl. now rewrite Hc, Hf.
Qed.

(** Splitting undoes joining, on fields without the delimiter. *)
Lemma fields_join (ts : list string) :
  ts <> [] -> Forall free ts -> fields delim (join delim ts) = ts.
Proof.
  induction ts as [|t ts IH]; [contradiction|].
  intros _ Hall. inversion Hall as [|? ? Ht Hts]; subst.
  destruct ts as [|t' ts].
  - simpl. apply fields_single. exact Ht.
  - change (join delim (t :: t' :: ts))
      with (t ++ String delim (join delim (t' :: ts))).
    rewrite (fields_app _ _ Ht), IH; [reflexivity | discriminate | exact Hts].
Qed.

Lemma tokens_join (ts : list string) :
  Forall free ts -> tokens delim (join delim ts) = List.filter nonempty ts.
Proof.
  intros Hall. unfold tokens. destruct ts as [|t ts]; [reflexivity|].
  rewrite fields_join; [reflexivity | discriminate | exact Hall].
Qed.

Lemma Forall_filter {A : Type} (P : A -> Prop) (f : A -> bool) (l : list A) :
  Forall P l -> Forall P (List.filter f l).
Proof.
  induction 1 as [|a l Ha Hl IH]; simpl; [constructor|].
  destruct (f a); [constructor; assumption | assumption].
Qed.

Lemma filter_all {A : Type} (f : A -> bool) (l : list A) :
  Forall (fun a => f a = true) l -> List.filter f l = l.
Proof.
  induction 1 as [|a l Ha Hl IH]; simpl; [reflexivity|].
  now rewrite Ha, IH.
Qed.

Lemma tokens_free (s : string) : Forall free (tokens delim s).
Proof. apply Forall_filter, fields_free. Qed.

Lemma tokens_nonempty (s : string) :
  Forall (fun t => nonempty t = true) (tokens delim s).
Proof.
  unfold tokens. induction (fields delim s) as [|f fs IH]; simpl.
  - constructor.
  - destruct (nonempty f) eqn:Hf; [constructor; assumption | assumption].
Qed.

(** What [set_field] returns keeps a property of the tokens it was given
    that the new token has too. *)
Lemma set_field_Forall (P : string -> Prop) (name value : string) :
  (value <> "" -> P (field name value)) ->
  forall ts found, Forall P ts -> Forall P (set_field name value found ts).
Proof.
  intros Hnew. induction ts as [|t ts IH]; intros found Hall; simpl.
  - destruct found; simpl; [constructor|].
    destruct (String.eqb_spec value "") as [_|Hne]; [constructor|].
    repeat constructor. apply Hnew, Hne.
  - inversion Hall as [|? ? Ht Hts]; subst.
    destruct (is_field name t).
    + destruct found; simpl; [apply IH, Hts|].
      destruct (String.eqb_spec value "") as [_|Hne]; [apply IH, Hts|].
      constructor; [apply Hnew, Hne | apply IH, Hts].
    + constructor; [exact Ht | apply IH, Hts].
Qed.

(** The tokens of [name] after [set_field]: none when one was already met
    or the value is empty, the new token alone otherwise. *)
Lemma set_field_own (name value : string) :
  forall ts found,
  List.filter (is_field name) (set_field name value found ts)
  = if found || (value =? "") then [] else [field name value].
Proof.
  induction ts as [|t ts IH]; intros found; simpl.
  - destruct (found || (value =? "")); simpl; [reflexivity|].
    now rewrite is_field_own.
  - destruct (is_field name t) eqn:Ht.
    + destruct (found || (value =? "")); simpl.
      * apply IH.
      * rewrite is_field_own, IH. reflexivity.
    + simpl. rewrite Ht. apply IH.
Qed.

(** The tokens of the other keys stay, in their order. *)
Lemma set_field_others (name value : string) :
  forall ts found,
  List.filter (fun t => negb (is_field name t))
    (set_field name value found ts)
  = List.filter (fun t => negb (is_field name t)) ts.
Proof.
  induction ts as [|t ts IH]; intros found; simpl.
  - destruct (found || (value =? "")); simpl; [reflexivity|].
    now rewrite is_field_own.
  - destruct (is_field name t) eqn:Ht; simpl.
    + destruct (found || (value =? "")); simpl.
      * apply IH.
      * rewrite is_field_own. simpl. apply IH.
    + rewrite Ht. simpl. now rewrite IH.
Qed.

Lemma field_free (name value : string) :
  delim <> "="%char ->
  delim_free delim name = true ->
  delim_free delim value = true ->
  delim_free delim (field name value) = true.
Proof.
  intros Hd Hname Hvalue. unfold field.
  rewrite !delim_free_app, Hname, Hvalue. cbn [delim_free andb].
  destruct (Ascii.eqb_spec "=" delim) as [He|_]; [|reflexivity].
  exfalso. apply Hd. now rewrite He.
Qed.

(** Writing a field leaves the annotation without a flag of its key when
    it had none. *)
Lemma has_flag_set_field (name value : string) :
  forall ts found,
  has_flag name ts = false ->
  has_flag name (set_field name value found ts) = false.
Proof.
  assert (Hnew : String.eqb name (field name value) = false).
  { apply String.eqb_neq. unfold field.
    induction name as [|c n IH]; simpl; [discriminate|].
    intros H. injection H as H. apply IH, H. }
  induction ts as [|t ts IH]; intros found Hflag; simpl.
  - destruct (found || (value =? "")); simpl; [reflexivity|].
    now rewrite Hnew.
  - simpl in Hflag. apply orb_false_iff in Hflag as [Ht Hts].
    destruct (is_field name t).
    + destruct (found || (value =? "")); simpl.
      * apply IH, Hts.
      * rewrite Hnew. apply IH, Hts.
    + simpl. rewrite Ht. apply IH, Hts.
Qed.

(** The tokens of an annotation made of the tokens [set_field] returns. *)
Lemma tokens_set_field (name value : string) (ts : list string) :
  (value <> "" -> delim_free delim (field name value) = true) ->
  Forall free ts ->
  Forall (fun t => nonempty t = true) ts ->
  tokens delim (join delim (set_field name value false ts))
  = set_field name value false ts.
Proof.
  intros Hnew Hfree Hne. rewrite tokens_join.
  - apply filter_all.
    apply (set_field_Forall (fun t => nonempty t = true)); [|exact Hne].
    intros _. apply nonempty_true. unfold field.
    destruct name; discriminate.
  - apply (set_field_Forall free); [exact Hnew | exact Hfree].
Qed.

(** On an annotation that does not hold the key as a flag,
    [setVariantInfo] answers a block, whose tokens are those [set_field]
    returns and whose other fields are those of [v]. *)
Lemma setVariantInfo_tokens (v : Variants) (name value : string) :
  (value <> "" -> delim_free delim (field name value) = true) ->
  has_flag name (tokens delim (info v)) = false ->
  exists v',
    setVariantInfo delim v name value = InfoSet v'
    /\ tokens delim (info v')
       = set_field name value false (tokens delim (info v))
    /\ (chr v', variation v', calls v', pos v', len v', ambiguous_alleles v')
       = (chr v, variation v, calls v, pos v, len v, ambiguous_alleles v).
Proof.
  intros Hnew Hflag. unfold setVariantInfo. rewrite Hflag.
  eexists. split; [reflexivity|]. split; [|reflexivity].
  cbn [info with_info].
  apply tokens_set_field;
    [exact Hnew | apply tokens_free | apply tokens_nonempty].
Qed.

(** On an annotation that holds the key as a flag, [setVariantInfo] fails
    and writes nothing. *)
Lemma setVariantInfo_flag (v : Variants) (name value : string) :
  has_flag name (tokens delim (info v)) = true ->
  setVariantInfo delim v name value = MalformedAnnotationUse.
Proof. intros Hflag. unfold setVariantInfo. now rewrite Hflag. Qed.

End AnnotationFacts.



(** The spec's examples, with the semicolon as delimiter. *)
Example set_DP_twice :
  match setVariantInfo ";" (annotated "AC=1;AN=2") "DP" "10" with
  | InfoSet v1 => info_of (setVariantInfo ";" v1 "DP" "20")
  | MalformedAnnotationUse => None
  end
  = Some "AC=1;AN=2;DP=20".
Proof. reflexivity. Qed.

Example set_DP_in_place :
  info_of (setVariantInfo ";" (annotated "AC=1;DP=5;AN=2") "DP" "20")
  = Some "AC=1;DP=20;AN=2".
Proof. reflexivity. Qed.

Example set_DP_empty :
  info_of (setVariantInfo ";" (annotated "AC=1;DP=5;AN=2") "DP" "")
  = Some "AC=1;AN=2".
Proof. reflexivity. Qed.

(** A key that stands in the annotation as a flag is refused, with a value
    and without one. *)
Example set_flag_key :
  setVariantInfo ";" (annotated "DB;AC=1") "DB" "1" = MalformedAnnotationUse
  /\ setVariantInfo ";" (annotated "DB;AC=1") "DB" ""
     = MalformedAnnotationUse.
Proof. split; reflexivity. Qed.

Close Scope string_scope.

(** * Further properties of the header's functions *)

(** ** Where the loops leave the array *)

Lemma gt_at_None (c : Call) (i : nat) :
  gt_at c i = None <-> (List.length (gt c) <= i)%nat.
Proof. unfold gt_at. apply nth_error_None. Qed.

Lemma all_from_0 (c : Call) (P : Z -> Prop) :
  (forall j g, (0 <= j)%nat -> gt_at c j = Some g -> P g)
  <-> Forall P (gt c).
Proof.
  rewrite Forall_forall. unfold gt_at. split.
  - intros H g Hin. apply In_nth_error in Hin as [j Hj].
    apply (H j g); [lia | exact Hj].
  - intros H j g _ Hj. apply H. eapply nth_error_In. exact Hj.
Qed.

(** The no-call loop started inside the array runs off it exactly when it
    has more iterations left than entries and meets no called allele. *)
Lemma isNocall_loop_None (c : Call) (todo i : nat) :
  (i <= List.length (gt c))%nat ->
  isNocall_loop c i todo = None <->
  (List.length (gt c) < i + todo)%nat /\
  forall j g, (i <= j)%nat -> gt_at c j = Some g -> g < 0.
Proof.
  revert i. induction todo as [|todo IH]; intros i Hi; simpl.
  - split; [discriminate | intros [H _]; lia].
  - destruct (gt_at c i) as [g|] eqn:Hg.
    + assert (Hlt : (i < List.length (gt c))%nat).
      { apply Nat.nle_gt. intros Hle. apply gt_at_None in Hle. congruence. }
      destruct (g >=? 0) eqn:Hsign.
      * split; [discriminate|]. intros [_ H].
        specialize (H i g (le_n i) Hg). lia.
      * rewrite (IH (S i) Hlt). split.
        -- intros [Hlen H]. split; [lia|]. intros j g' Hj Hg'.
           destruct (Nat.eq_dec j i) as [->|Hne].
           ++ rewrite Hg in Hg'. injection Hg' as <-. lia.
           ++ apply (H j g'); [lia | exact Hg'].
        -- intros [Hlen H]. split; [lia|]. intros j g' Hj. apply H. lia.
    + apply gt_at_None in Hg. split; [intros _ | reflexivity].
      split; [lia|]. intros j g Hj Hsome.
      assert (Hn : gt_at c j = None) by (apply gt_at_None; lia).
      congruence.
Qed.

Lemma isHomref_loop_None (c : Call) (todo i : nat) :
  (i <= List.length (gt c))%nat ->
  isHomref_loop c i todo = None <->
  (List.length (gt c) < i + todo)%nat /\
  forall j g, (i <= j)%nat -> gt_at c j = Some g -> g = 0.
Proof.
  revert i. induction todo as [|todo IH]; intros i Hi; simpl.
  - split; [discriminate | intros [H _]; lia].
  - destruct (gt_at c i) as [g|] eqn:Hg.
    + assert (Hlt : (i < List.length (gt c))%nat).
      { apply Nat.nle_gt. intros Hle. apply gt_at_None in Hle. congruence. }
      destruct (Z.eqb_spec g 0) as [Hz|Hz]; simpl.
      * rewrite (IH (S i) Hlt). split.
        -- intros [Hlen H]. split; [lia|]. intros j g' Hj Hg'.
           destruct (Nat.eq_dec j i) as [->|Hne].
           ++ rewrite Hg in Hg'. injection Hg' as <-. exact Hz.
           ++ apply (H j g'); [lia | exact Hg'].
        -- intros [Hlen H]. split; [lia|]. intros j g' Hj. apply H. lia.
      * split; [discriminate|]. intros [_ H].
        specialize (H i g (le_n i) Hg). contradiction.
    + apply gt_at_None in Hg. split; [intros _ | reflexivity].
      split; [lia|]. intros j g Hj Hsome.
      assert (Hn : gt_at c j = None) by (apply gt_at_None; lia).
      congruence.
Qed.

(** X1: [isNocall] reads outside the genotype array exactly when the active
    length exceeds the number of entries and every entry is below 0; a
    called allele inside the array ends the loop before that. *)
Theorem isNocall_out_of_range_iff (c : Call) :
  isNocall c = None <->
  (List.length (gt c) < N.to_nat (ngt c))%nat /\
  Forall (fun g => g < 0) (gt c).
Proof.
  unfold isNocall. rewrite isNocall_loop_None by lia.
  rewrite all_from_0. reflexivity.
Qed.

(** X2: [isHomref] reads outside the genotype array exactly when the active
    length exceeds the number of entries and every entry is 0. *)
Theorem isHomref_out_of_range_iff (c : Call) :
  isHomref c = None <->
  (List.length (gt c) < N.to_nat (ngt c))%nat /\
  Forall (fun g => g = 0) (gt c).
Proof.
  unfold isHomref. rewrite isHomref_loop_None by lia.
  rewrite all_from_0. reflexivity.
Qed.

(** ** What a [true] answer says about the array *)

Lemma isNocall_loop_true (c : Call) (todo i : nat) :
  isNocall_loop c i todo = Some true ->
  forall j, (i <= j < i + todo)%nat ->
  exists g, gt_at c j = Some g /\ g < 0.
Proof.
  revert i. induction todo as [|todo IH]; intros i Hrun j Hj; [lia|].
  simpl in Hrun. destruct (gt_at c i) as [g|] eqn:Hg; [|discriminate].
  destruct (g >=? 0) eqn:Hsign; [discriminate|].
  destruct (Nat.eq_dec j i) as [->|Hne].
  - exists g. split; [exact Hg | lia].
  - apply (IH (S i) Hrun). lia.
Qed.

Lemma isHomref_loop_true (c : Call) (todo i : nat) :
  isHomref_loop c i todo = Some true ->
  (0 < ngt c)%N /\
  forall j, (i <= j < i + todo)%nat -> gt_at c j = Some 0.
Proof.
  revert i. induction todo as [|todo IH]; intros i Hrun; simpl in Hrun.
  - injection Hrun as Hn. apply N.ltb_lt in Hn. split; [exact Hn | lia].
  - destruct (gt_at c i) as [g|] eqn:Hg; [|discriminate].
    destruct (Z.eqb_spec g 0) as [Hz|Hz]; simpl in Hrun; [|discriminate].
    destruct (IH (S i) Hrun) as [Hn H]. split; [exact Hn|].
    intros j Hj. destruct (Nat.eq_dec j i) as [->|Hne].
    + now rewrite Hg, Hz.
    + apply H. lia.
Qed.

Lemma isHet_true (c : Call) :
  isHet c = Some true ->
  ngt c = 2%N /\
  exists g0 g1, gt_at c 0 = Some g0 /\ gt_at c 1 = Some g1 /\
    ((g0 = 0 /\ 0 < g1) \/ (0 < g0 /\ g1 = 0)).
Proof.
  unfold isHet, gt_eq, gt_gt, and_also, or_else.
  destruct (N.eqb_spec (ngt c) 2) as [Hn|Hn]; [|discriminate].
  destruct (gt_at c 0) as [g0|]; [|discriminate].
  destruct (Z.eqb_spec g0 0) as [H0|H0].
  - destruct (gt_at c 1) as [g1|]; [|discriminate].
    destruct (g1 >? 0) eqn:H1.
    + intros _. split; [exact Hn|]. exists g0, g1.
      apply Z.gtb_lt in H1. repeat split. left. lia.
    + destruct (g0 >? 0) eqn:Hp; [|discriminate].
      apply Z.gtb_lt in Hp. lia.
  - destruct (g0 >? 0) eqn:Hp.
    + destruct (gt_at c 1) as [g1|]; [|discriminate].
      destruct (Z.eqb_spec g1 0) as [H1|H1]; [|discriminate].
      intros _. split; [exact Hn|]. exists g0, g1.
      apply Z.gtb_lt in Hp. repeat split. right. lia.
    + discriminate.
Qed.

Lemma isHomalt_true (c : Call) :
  isHomalt c = Some true ->
  ngt c = 2%N /\
  exists g, gt_at c 0 = Some g /\ gt_at c 1 = Some g /\ 0 < g.
Proof.
  unfold isHomalt, gt_gt, and_also.
  destruct (N.eqb_spec (ngt c) 2) as [Hn|Hn]; [|discriminate].
  destruct (gt_at c 0) as [g0|]; [|discriminate].
  destruct (gt_at c 1) as [g1|]; [|discriminate].
  destruct (Z.eqb_spec g0 g1) as [He|He]; [|discriminate].
  destruct (g1 >? 0) eqn:Hp; [|discriminate].
  intros _. split; [exact Hn|]. exists g1. apply Z.gtb_lt in Hp.
  subst g0. repeat split. exact Hp.
Qed.

Lemma isNocall_true_first (c : Call) :
  isNocall c = Some true -> (0 < ngt c)%N ->
  exists g, gt_at c 0 = Some g /\ g < 0.
Proof.
  intros Hrun Hn. apply (isNocall_loop_true c _ 0 Hrun). lia.
Qed.

Lemma isHomref_true_all (c : Call) :
  isHomref c = Some true ->
  (0 < ngt c)%N /\
  forall j, (j < N.to_nat (ngt c))%nat -> gt_at c j = Some 0.
Proof.
  intros Hrun. destruct (isHomref_loop_true c _ 0 Hrun) as [Hn H].
  split; [exact Hn|]. intros j Hj. apply H. lia.
Qed.

(** X3: no two of [isNocall], [isHomref], [isHet] and [isHomalt] answer
    [true] on the same call, whatever the array and the active length
    are. *)
Theorem predicates_pairwise_exclusive (c : Call) :
  (isNocall c = Some true -> isHomref c <> Some true)
  /\ (isNocall c = Some true -> isHet c <> Some true)
  /\ (isNocall c = Some true -> isHomalt c <> Some true)
  /\ (isHomref c = Some true -> isHet c <> Some true)
  /\ (isHomref c = Some true -> isHomalt c <> Some true)
  /\ (isHet c = Some true -> isHomalt c <> Some true).
Proof.
  repeat split.
  - intros Hno Href. destruct (isHomref_true_all c Href) as [Hn H].
    destruct (isNocall_true_first c Hno Hn) as [g [Hg Hneg]].
    rewrite (H 0%nat) in Hg by lia. injection Hg as <-. lia.
  - intros Hno Hhet.
    destruct (isHet_true c Hhet) as [Hn [g0 [g1 [E0 [E1 Hor]]]]].
    destruct (isNocall_loop_true c _ 0 Hno 0%nat) as [a0 [A0 N0]];
      [rewrite Hn; simpl; lia|].
    destruct (isNocall_loop_true c _ 0 Hno 1%nat) as [a1 [A1 N1]];
      [rewrite Hn; simpl; lia|].
    rewrite E0 in A0. rewrite E1 in A1.
    injection A0 as <-. injection A1 as <-. lia.
  - intros Hno Halt. destruct (isHomalt_true c Halt) as [Hn [g [E0 [_ Hp]]]].
    destruct (isNocall_true_first c Hno) as [a [A Hneg]]; [rewrite Hn; lia|].
    rewrite E0 in A. injection A as <-. lia.
  - intros Href Hhet.
    destruct (isHet_true c Hhet) as [Hn [g0 [g1 [E0 [E1 Hor]]]]].
    destruct (isHomref_true_all c Href) as [_ H].
    rewrite (H 0%nat) in E0 by (rewrite Hn; simpl; lia).
    rewrite (H 1%nat) in E1 by (rewrite Hn; simpl; lia).
    injection E0 as <-. injection E1 as <-. lia.
  - intros Href Halt. destruct (isHomalt_true c Halt) as [Hn [g [E0 [_ Hp]]]].
    destruct (isHomref_true_all c Href) as [_ H].
    rewrite (H 0%nat) in E0 by (rewrite Hn; simpl; lia).
    injection E0 as <-. lia.
  - intros Hhet Halt.
    destruct (isHet_true c Hhet) as [_ [g0 [g1 [E0 [E1 Hor]]]]].
    destruct (isHomalt_true c Halt) as [_ [g [A0 [A1 Hp]]]].
    rewrite E0 in A0. rewrite E1 in A1.
    injection A0 as <-. injection A1 as <-. lia.
Qed.

Lemma predicates_pairwise_exclusive_witness :
  isHet (Call_with_gt [0; 3]) = Some true /\
  isHomalt (Call_with_gt [0; 3]) <> Some true.
Proof.
  split; [reflexivity|].
  apply (proj2 (proj2 (proj2 (proj2 (proj2
           (predicates_pairwise_exclusive (Call_with_gt [0; 3]))))))).
  reflexivity.
Defined.

(** X4: when the active length is not 2, [isHet] and [isHomalt] answer
    [false] without reading the array, whatever it holds; so a call that
    satisfies [isHemi] satisfies neither. *)
Theorem diploid_tests_short_circuit (c : Call) :
  ngt c <> 2%N ->
  isHet c = Some false /\ isHomalt c = Some false.
Proof.
  intros Hn. unfold isHet, isHomalt, and_also.
  destruct (N.eqb_spec (ngt c) 2) as [H2|_]; [contradiction|].
  split; reflexivity.
Qed.

Lemma diploid_tests_short_circuit_witness :
  isHet (set_ngt (Call_with_gt []) 1) = Some false /\
  isHomalt (set_ngt (Call_with_gt []) 1) = Some false.
Proof.
  apply (diploid_tests_short_circuit (set_ngt (Call_with_gt []) 1)).
  discriminate.
Defined.

(** ** What the predicates read *)

Lemma isNocall_loop_ext (c c' : Call) (todo i : nat) :
  (forall j, (j < i + todo)%nat -> gt_at c j = gt_at c' j) ->
  isNocall_loop c i todo = isNocall_loop c' i todo.
Proof.
  revert i. induction todo as [|todo IH]; intros i H; simpl; [reflexivity|].
  rewrite <- (H i) by lia. destruct (gt_at c i) as [g|]; [|reflexivity].
  destruct (g >=? 0); [reflexivity|]. apply IH. intros j Hj. apply H. lia.
Qed.

Lemma isHomref_loop_ext (c c' : Call) (todo i : nat) :
  ngt c = ngt c' ->
  (forall j, (j < i + todo)%nat -> gt_at c j = gt_at c' j) ->
  isHomref_loop c i todo = isHomref_loop c' i todo.
Proof.
  intros Hn. revert i.
  induction todo as [|todo IH]; intros i H; simpl; [now rewrite Hn|].
  rewrite <- (H i) by lia. destruct (gt_at c i) as [g|]; [|reflexivity].
  destruct (negb (g =? 0)); [reflexivity|].
  apply IH. intros j Hj. apply H. lia.
Qed.

Lemma gt_at_active_prefix (c c' : Call) (n j : nat) :
  firstn n (gt c) = firstn n (gt c') ->
  (j < n)%nat -> gt_at c j = gt_at c' j.
Proof.
  intros Hpre Hj. unfold gt_at.
  assert (H : nth_error (firstn n (gt c)) j = nth_error (firstn n (gt c')) j)
    by now rewrite Hpre.
  rewrite !nth_error_firstn in H.
  destruct (Nat.ltb_spec j n) as [_|Hge]; [exact H | lia].
Qed.

(** X5: the five predicates read the active length and the active slots of
    the genotype array and nothing else: two calls that agree on [ngt] and
    on [gt[0 .. ngt)] get the same answers, whatever their inactive slots,
    depths, filters and qualities are. *)
Theorem predicates_read_active_only (c c' : Call) :
  ngt c = ngt c' ->
  firstn (N.to_nat (ngt c)) (gt c) = firstn (N.to_nat (ngt c)) (gt c') ->
  isNocall c = isNocall c'
  /\ isHomref c = isHomref c'
  /\ isHet c = isHet c'
  /\ isHomalt c = isHomalt c'
  /\ isHemi c = isHemi c'.
Proof.
  intros Hn Hpre.
  assert (Hact : forall j, (j < N.to_nat (ngt c))%nat ->
                           gt_at c j = gt_at c' j)
    by (intros j Hj; apply (gt_at_active_prefix c c' _ j Hpre Hj)).
  split; [|split; [|split; [|split]]].
  - unfold isNocall. rewrite <- Hn. apply isNocall_loop_ext.
    intros j Hj. apply Hact. lia.
  - unfold isHomref. rewrite <- Hn. apply isHomref_loop_ext; [exact Hn|].
    intros j Hj. apply Hact. lia.
  - unfold isHet, gt_eq, gt_gt. rewrite <- Hn.
    destruct (N.eqb_spec (ngt c) 2) as [H2|_]; [|reflexivity].
    rewrite <- (Hact 0%nat), <- (Hact 1%nat) by (rewrite H2; simpl; lia).
    reflexivity.
  - unfold isHomalt, gt_gt. rewrite <- Hn.
    destruct (N.eqb_spec (ngt c) 2) as [H2|_]; [|reflexivity].
    rewrite <- (Hact 0%nat), <- (Hact 1%nat) by (rewrite H2; simpl; lia).
    reflexivity.
  - unfold isHemi. now rewrite Hn.
Qed.

Lemma predicates_read_active_only_witness :
  isNocall (set_ngt (Call_with_gt [-1; 4]) 1) = isNocall (Call_with_gt [-1])
  /\ isHomref (set_ngt (Call_with_gt [-1; 4]) 1) = isHomref (Call_with_gt [-1])
  /\ isHet (set_ngt (Call_with_gt [-1; 4]) 1) = isHet (Call_with_gt [-1])
  /\ isHomalt (set_ngt (Call_with_gt [-1; 4]) 1)
     = isHomalt (Call_with_gt [-1])
  /\ isHemi (set_ngt (Call_with_gt [-1; 4]) 1) = isHemi (Call_with_gt [-1]).
Proof.
  apply (predicates_read_active_only
           (set_ngt (Call_with_gt [-1; 4]) 1) (Call_with_gt [-1]));
    reflexivity.
Defined.

(** X6: the order of the two alleles does not matter.  Swapping [gt[0]] and
    [gt[1]] changes neither [isHet] nor [isHomalt], and with two active
    alleles neither [isNocall] nor [isHomref]. *)
Theorem predicates_ignore_allele_order (c : Call) :
  isHet (swap_gt c) = isHet c
  /\ isHomalt (swap_gt c) = isHomalt c
  /\ (ngt c = 2%N ->
      isNocall (swap_gt c) = isNocall c /\
      isHomref (swap_gt c) = isHomref c).
Proof.
  split; [|split].
  - unfold isHet, gt_eq, gt_gt, gt_at, swap_gt. simpl.
    destruct (ngt c =? 2)%N; [|reflexivity].
    destruct (gt c) as [|g0 [|g1 rest]]; try reflexivity. simpl.
    destruct (Z.eqb_spec g0 0), (Z.eqb_spec g1 0),
      (g0 >? 0) eqn:H0, (g1 >? 0) eqn:H1;
      try reflexivity; subst; discriminate.
  - unfold isHomalt, gt_gt, gt_at, swap_gt. simpl.
    destruct (ngt c =? 2)%N; [|reflexivity].
    destruct (gt c) as [|g0 [|g1 rest]]; try reflexivity. simpl.
    rewrite (Z.eqb_sym g1 g0).
    destruct (Z.eqb_spec g0 g1) as [->|_]; reflexivity.
  - intros Hn. unfold isNocall, isHomref, gt_at, swap_gt. simpl.
    rewrite Hn. simpl. unfold gt_at. simpl.
    destruct (gt c) as [|g0 [|g1 rest]]; try (split; reflexivity). simpl.
    split.
    + destruct (g0 >=? 0), (g1 >=? 0); reflexivity.
    + rewrite ?Hn. destruct (g0 =? 0), (g1 =? 0); reflexivity.
Qed.

Lemma predicates_ignore_allele_order_witness :
  isNocall (swap_gt (Call_with_gt [3; 0])) = isNocall (Call_with_gt [3; 0])
  /\ isHomref (swap_gt (Call_with_gt [3; 0]))
     = isHomref (Call_with_gt [3; 0]).
Proof.
  apply (proj2 (proj2
           (predicates_ignore_allele_order (Call_with_gt [3; 0])))).
  reflexivity.
Defined.

(** ** The loops over the calls of a block *)

Lemma isHomref_returns (c : Call) :
  wf_call c -> exists b, isHomref c = Some b.
Proof.
  intros [Hsz Hn].
  destruct (isHomref_loop_spec c (N.to_nat (ngt c)) 0) as [b [Hb _]].
  - rewrite Hsz. simpl. exact Hn.
  - exists b. exact Hb.
Qed.

Lemma anyHomref_loop_spec (cs : list Call) :
  Forall wf_call cs ->
  exists b, anyHomref_loop cs = Some b /\
    (b = true <-> exists c, In c cs /\ isHomref c = Some true).
Proof.
  induction 1 as [|c cs Hc Hcs IH]; simpl.
  - exists false. split; [reflexivity|]. split; [discriminate|].
    intros [c [[] _]].
  - destruct (isHomref_returns c Hc) as [[|] Hb]; rewrite Hb.
    + exists true. split; [reflexivity|]. split; [|reflexivity].
      intros _. exists c. split; [left; reflexivity | exact Hb].
    + destruct IH as [b [Hrun Hiff]]. exists b. split; [exact Hrun|].
      rewrite Hiff. split.
      * intros [c' [Hin Hh]]. exists c'. split; [right; exact Hin | exact Hh].
      * intros [c' [[<-|Hin] Hh]]; [congruence|]. now exists c'.
Qed.

Lemma allHomref_loop_spec (size : nat) (cs : list Call) :
  Forall wf_call cs ->
  exists b, allHomref_loop size cs = Some b /\
    (b = true <->
     (0 < size)%nat /\ forall c, In c cs -> isHomref c = Some true).
Proof.
  induction 1 as [|c cs Hc Hcs IH]; simpl.
  - exists (0 <? size)%nat. split; [reflexivity|].
    rewrite Nat.ltb_lt. split.
    + intros H. split; [exact H | intros c []].
    + intros [H _]. exact H.
  - destruct (isHomref_returns c Hc) as [[|] Hb]; rewrite Hb; simpl.
    + destruct IH as [b [Hrun Hiff]]. exists b. split; [exact Hrun|].
      rewrite Hiff. split.
      * intros [Hs H]. split; [exact Hs|].
        intros c' [<-|Hin]; [exact Hb | apply H, Hin].
      * intros [Hs H]. split; [exact Hs|].
        intros c' Hin. apply H. right. exact Hin.
    + exists false. split; [reflexivity|]. split; [discriminate|].
      intros [_ H]. specialize (H c (or_introl eq_refl)). congruence.
Qed.

(** X7: on a block whose calls keep the data-model invariant [anyHomref]
    returns, and it returns [true] if and only if some call of the block is
    hom-ref. *)
Theorem anyHomref_iff_some_call (v : Variants) :
  Forall wf_call (calls v) ->
  exists b, anyHomref v = Some b /\
    (b = true <-> exists c, In c (calls v) /\ isHomref c = Some true).
Proof. intros Hwf. apply anyHomref_loop_spec, Hwf. Qed.

Lemma wf_mixed_block : Forall wf_call (calls mixed_block).
Proof.
  repeat constructor; vm_compute; lia.
Qed.

Lemma anyHomref_iff_some_call_witness :
  exists b, anyHomref mixed_block = Some b /\
    (b = true <->
     exists c, In c (calls mixed_block) /\ isHomref c = Some true).
Proof.
  apply (anyHomref_iff_some_call mixed_block).
  exact wf_mixed_block.
Defined.

(** X8: on a block whose calls keep the data-model invariant [allHomref]
    returns, and it returns [true] if and only if the block has a call and
    every call of it is hom-ref. *)
Theorem allHomref_iff_every_call (v : Variants) :
  Forall wf_call (calls v) ->
  exists b, allHomref v = Some b /\
    (b = true <->
     calls v <> [] /\ forall c, In c (calls v) -> isHomref c = Some true).
Proof.
  intros Hwf. unfold allHomref.
  destruct (allHomref_loop_spec (List.length (calls v)) (calls v) Hwf)
    as [b [Hrun Hiff]].
  exists b. split; [exact Hrun|]. rewrite Hiff.
  destruct (calls v) as [|c cs]; simpl.
  - split; [intros [H _]; lia | intros [H _]; contradiction].
  - split; intros [_ H]; (split; [|exact H]); [discriminate | lia].
Qed.

Lemma allHomref_iff_every_call_witness :
  exists b, allHomref mixed_block = Some b /\
    (b = true <->
     calls mixed_block <> [] /\
     forall c, In c (calls mixed_block) -> isHomref c = Some true).
Proof.
  apply (allHomref_iff_every_call mixed_block).
  exact wf_mixed_block.
Defined.

(** ** Blocks whose sample vectors are put end to end *)

Lemma anyHomref_loop_app (a b : list Call) :
  anyHomref_loop (a ++ b) = anyHomref_loop a ||| anyHomref_loop b.
Proof.
  induction a as [|c a IH]; simpl; [reflexivity|].
  destruct (isHomref c) as [[|]|]; [reflexivity | exact IH | reflexivity].
Qed.

Lemma anyAmbiguous_loop_app (a b : list (list Z)) :
  anyAmbiguous_loop (a ++ b) = anyAmbiguous_loop a || anyAmbiguous_loop b.
Proof.
  induction a as [|l a IH]; simpl; [reflexivity|].
  destruct (negb (empty l)); [reflexivity | exact IH].
Qed.

Lemma allHomref_loop_size (s s' : nat) (cs : list Call) :
  (0 < s)%nat -> (0 < s')%nat ->
  allHomref_loop s cs = allHomref_loop s' cs.
Proof.
  intros Hs Hs'. induction cs as [|c cs IH]; simpl.
  - apply Nat.ltb_lt in Hs, Hs'. now rewrite Hs, Hs'.
  - destruct (isHomref c) as [[|]|]; simpl; [exact IH | reflexivity ..].
Qed.

Lemma allHomref_loop_app (s : nat) (a b : list Call) :
  (0 < s)%nat ->
  allHomref_loop s (a ++ b) = allHomref_loop s a &&& allHomref_loop s b.
Proof.
  intros Hs. induction a as [|c a IH]; simpl.
  - apply Nat.ltb_lt in Hs. rewrite Hs. simpl.
    destruct (allHomref_loop s b) as [[|]|]; reflexivity.
  - destruct (isHomref c) as [[|]|]; simpl; [exact IH | reflexivity ..].
Qed.

(** X9: when the sample vectors of [v] are those of [v1] followed by those
    of [v2], [anyHomref] and [anyAmbiguous] of [v] are the disjunctions of
    those of [v1] and [v2], the second block being looked at only when the
    first one does not decide. *)
Theorem any_tests_of_joined_samples (v v1 v2 : Variants) :
  calls v = calls v1 ++ calls v2 ->
  ambiguous_alleles v = ambiguous_alleles v1 ++ ambiguous_alleles v2 ->
  anyHomref v = anyHomref v1 ||| anyHomref v2
  /\ anyAmbiguous v = anyAmbiguous v1 || anyAmbiguous v2.
Proof.
  intros Hc Ha. unfold anyHomref, anyAmbiguous. rewrite Hc, Ha. split.
  - apply anyHomref_loop_app.
  - apply anyAmbiguous_loop_app.
Qed.

(** X10: when the calls of [v] are those of [v1] followed by those of [v2]
    and neither block is without calls, [allHomref] of [v] is the
    conjunction of those of [v1] and [v2].  A block without calls is not
    neutral: it answers [false], while joining it changes nothing. *)
Theorem allHomref_of_joined_samples (v v1 v2 : Variants) :
  calls v = calls v1 ++ calls v2 ->
  calls v1 <> [] ->
  calls v2 <> [] ->
  allHomref v = allHomref v1 &&& allHomref v2.
Proof.
  intros Hc H1 H2. unfold allHomref. rewrite Hc.
  assert (L1 : (0 < List.length (calls v1))%nat)
    by (destruct (calls v1); [contradiction | simpl; lia]).
  assert (L2 : (0 < List.length (calls v2))%nat)
    by (destruct (calls v2); [contradiction | simpl; lia]).
  rewrite allHomref_loop_app by (rewrite length_app; lia).
  rewrite (allHomref_loop_size (List.length (calls v1 ++ calls v2))
             (List.length (calls v1)) (calls v1))
    by (rewrite ?length_app; lia).
  rewrite (allHomref_loop_size (List.length (calls v1 ++ calls v2))
             (List.length (calls v2)) (calls v2))
    by (rewrite ?length_app; lia).
  reflexivity.
Qed.

Lemma any_tests_of_joined_samples_witness :
  anyHomref (join_samples full_block mixed_block)
  = anyHomref full_block ||| anyHomref mixed_block
  /\ anyAmbiguous (join_samples full_block mixed_block)
     = anyAmbiguous full_block || anyAmbiguous mixed_block.
Proof.
  apply (any_tests_of_joined_samples
           (join_samples full_block mixed_block) full_block mixed_block);
    reflexivity.
Defined.

Lemma allHomref_of_joined_samples_witness :
  allHomref (join_samples full_block mixed_block)
  = allHomref full_block &&& allHomref mixed_block.
Proof.
  apply (allHomref_of_joined_samples
           (join_samples full_block mixed_block) full_block mixed_block).
  - reflexivity.
  - discriminate.
  - discriminate.
Defined.

(** A block without calls joined to a hom-ref sample: the joined block is
    all hom-ref, the conjunction is not. *)
Example allHomref_empty_not_neutral :
  let one := {| chr := "chr1"; variation := [];
                calls := [Call_with_gt [0; 0]];
                pos := 0; len := 1; info := "";
                ambiguous_alleles := [[]] |} in
  allHomref (join_samples (annotated "") one) = Some true /\
  allHomref (annotated "") &&& allHomref one = Some false.
Proof. split; reflexivity. Qed.

(** ** The constructor *)

(** X11: [Call()] sets every slot of the genotype array to missing, so
    whatever active length within the array is written afterwards, the call
    keeps the data-model invariant, is a no-call and is neither hom-ref,
    het nor hom-alt, until an allele is written. *)
Theorem Call_new_is_nocall (n : N) :
  (N.to_nat n <= MAX_GT)%nat ->
  wf_call (set_ngt Call_new n)
  /\ isNocall (set_ngt Call_new n) = Some true
  /\ isHomref (set_ngt Call_new n) = Some false
  /\ isHet (set_ngt Call_new n) = Some false
  /\ isHomalt (set_ngt Call_new n) = Some false.
Proof.
  intros Hn. unfold MAX_GT in Hn.
  assert (H : n = 0%N \/ n = 1%N \/ n = 2%N) by lia.
  destruct H as [-> | [-> | ->]];
    (split; [split; [reflexivity | vm_compute; lia] | repeat split]).
Qed.

Lemma Call_new_is_nocall_witness :
  wf_call (set_ngt Call_new 2)
  /\ isNocall (set_ngt Call_new 2) = Some true
  /\ isHomref (set_ngt Call_new 2) = Some false
  /\ isHet (set_ngt Call_new 2) = Some false
  /\ isHomalt (set_ngt Call_new 2) = Some false.
Proof.
  apply (Call_new_is_nocall 2). vm_compute. lia.
Defined.
